(** * Constant tracking for OTBN general-purpose registers

    A shallow embedding of [hw/ip/otbn/util/shared/constants.py]: the
    [ConstantContext] class (a dictionary from register names to known
    integer values) and its per-instruction transfer function
    [update_insn], followed by the properties of the embedding.

    Python integers are unbounded, hence [Z].  A Python [dict] with string
    keys is a [gmap string Z]; iteration order over a dict never influences
    the results below, which is why the extensional map is adequate.
    [ConstantContext] objects are mutable and are handled by reference, so
    they live in an explicit object store and every method is a store
    transformer that may raise. *)

From Stdlib Require Import ZArith.
From stdpp Require Import gmap strings list fin_maps pretty.

Set Warnings "-clear-no-such-hyp".

Local Open Scope string_scope.
Local Open Scope list_scope.

Abbreviation dict := (gmap string Z).

(** ** Exceptions and the two monads *)

(** [AssertionError] and [KeyError] are the exceptions the source can raise
    ([assert], and subscripting a dict with a missing key).  [NoSuchObject]
    has no Python counterpart: it is what a method of the model answers on a
    reference that was never allocated, which Python rules out by
    construction. *)
Inductive exn : Type :=
| AssertionError
| KeyError (key : string)
| NoSuchObject.

Inductive result (A : Type) : Type :=
| Ok (a : A)
| Raise (e : exn).
Arguments Ok {A} a.
Arguments Raise {A} e.

#[global] Instance result_ret : MRet result := λ A a, Ok a.

#[global] Instance result_bind : MBind result := λ A B k c,
  match c with
  | Ok a => k a
  | Raise e => Raise e
  end.

(** References to [ConstantContext] objects are indices in the store.  The
    store holds, for each object, its [values] dictionary: [__init__] stores
    a copy of its argument, so no dictionary is ever shared between two
    objects and the dictionaries themselves need no separate addresses. *)
Abbreviation ref := nat.
Abbreviation Heap := (list dict).

Definition M (A : Type) : Type := Heap → result A * Heap.

#[global] Instance M_ret : MRet M := λ A a h, (Ok a, h).

(** A raised exception ends the computation; what was written to the store
    before it stays written. *)
#[global] Instance M_bind : MBind M := λ A B k c h,
  match c h with
  | (Ok a, h') => k a h'
  | (Raise e, h') => (Raise e, h')
  end.

Definition lift {A : Type} (c : result A) : M A := λ h, (c, h).

(** [self.values], read and written through the reference. *)
Definition read (self : ref) : M dict :=
  λ h, match h !! self with
       | Some values => (Ok values, h)
       | None => (Raise NoSuchObject, h)
       end.

Definition write (self : ref) (values : dict) : M unit :=
  λ h, match h !! self with
       | Some _ => (Ok tt, <[self := values]> h)
       | None => (Raise NoSuchObject, h)
       end.

(** ** The instruction descriptor

    [Insn], [Operand] and [RegOperandType] are imported by the source from
    [insn_yaml] and [operand]; only the attributes that [constants.py] reads
    are kept.  The rendering function of a register operand type and the
    information-flow evaluator are data carried by the descriptor. *)

Inductive OperandType : Type :=
| RegOperandType (op_val_to_str : Z → option Z → string)
| OtherOperandType.

Record Operand : Type := {
  name : string;
  op_type : OperandType;
}.

(** The object returned by [insn.iflow.evaluate(op_vals, constants)], of
    which only [all_sinks()] is used. *)
Record InformationFlowGraph : Type := {
  all_sinks : gset string;
}.

Record Insn : Type := {
  mnemonic : string;
  operands : list Operand;
  name_to_operand : gmap string Operand;
  iflow_evaluate : dict → dict → InformationFlowGraph;
}.

(** ** Python primitives used by the source *)

(** [d[k]] *)
Definition subscript {V : Type} (d : gmap string V) (k : string) : result V :=
  match d !! k with
  | Some v => Ok v
  | None => Raise (KeyError k)
  end.

(** [s.endswith(suffix)] *)
Definition endswith (s suffix : string) : bool :=
  String.eqb
    (String.substring (String.length s - String.length suffix)
               (String.length suffix) s)
    suffix.

(** [s[:-n]] for a positive [n]: all but the last [n] characters, the empty
    string when [s] is shorter than [n]. *)
Definition drop_last (n : nat) (s : string) : string :=
  String.substring 0 (String.length s - n) s.

(** [d.pop(k, None)] for each [k] of a set, as in the invalidation loop. *)
Definition pop_all (sinks : gset string) (d : dict) : dict :=
  foldr delete d (elements sinks).

(** [d.update(new)]: every pair of [new] is written into [d]. *)
Definition dict_update (d new : dict) : dict := new ∪ d.

(** ** [get_op_val_str] *)

Definition get_op_val_str (insn : Insn) (op_vals : dict) (opname : string)
  : result string :=
  op ← subscript (name_to_operand insn) opname;
  match op_type op with
  | RegOperandType op_val_to_str =>
      v ← subscript op_vals opname;
      Ok (op_val_to_str v None)
  | OtherOperandType => Raise AssertionError
  end.

(** ** Step 1 of [update_insn]: the facts the instruction establishes

    [new_values] of the source.  Every lookup is made in [values], the
    dictionary of the context before the instruction. *)

(** One iteration of [for op in insn.operands]. *)
Definition inc_step (insn : Insn) (op_vals values : dict)
    (new_values : dict) (op : Operand) : result dict :=
  if endswith (name op) "_inc" then
    flag ← subscript op_vals (name op);
    if decide (flag ≠ 0%Z) then
      let inc_op := drop_last (String.length "_inc") (name op) in
      inc_name ← get_op_val_str insn op_vals inc_op;
      match values !! inc_name with
      | Some w => Ok (<[inc_name := (w + 1)%Z]> new_values)
      | None => Ok new_values
      end
    else Ok new_values
  else Ok new_values.

Fixpoint inc_loop (insn : Insn) (op_vals values : dict)
    (ops : list Operand) (new_values : dict) : result dict :=
  match ops with
  | [] => Ok new_values
  | op :: rest =>
      new_values' ← inc_step insn op_vals values new_values op;
      inc_loop insn op_vals values rest new_values'
  end.

Definition new_facts (insn : Insn) (op_vals values : dict) : result dict :=
  if decide (mnemonic insn = "addi") then
    grs1_name ← get_op_val_str insn op_vals "grs1";
    match values !! grs1_name with
    | Some s =>
        grd_name ← get_op_val_str insn op_vals "grd";
        imm ← subscript op_vals "imm";
        Ok (<[grd_name := (s + imm)%Z]> ∅)
    | None => Ok ∅
    end
  else if decide (mnemonic insn = "lui") then
    grd_name ← get_op_val_str insn op_vals "grd";
    imm ← subscript op_vals "imm";
    Ok (<[grd_name := Z.shiftl imm 12]> ∅)
  else
    inc_loop insn op_vals values (operands insn) ∅.

(** ** The class [ConstantContext] *)

Module ConstantContext.

(** [__init__]: the assertion, then a new object holding a copy of
    [values].  The new object's reference is the next free index. *)
Definition init (values : dict) : M ref := λ h,
  if decide (values !! "x0" = Some 0%Z)
  then (Ok (length h), h ++ [values])
  else (Raise AssertionError, h).

Definition set (self : ref) (gpr : string) (value : Z) : M unit :=
  if decide (gpr = "x0") then mret tt
  else
    values ← read self;
    write self (<[gpr := value]> values).

Definition get (self : ref) (gpr : string) : M (option Z) :=
  values ← read self;
  mret (values !! gpr).

Definition contains (self : ref) (gpr : string) : M bool :=
  values ← read self;
  mret (bool_decide (is_Some (values !! gpr))).

Definition copy (self : ref) : M ref :=
  values ← read self;
  init values.

(** The body of [for k, v in self.values.items()], over the items still
    to visit. *)
Fixpoint intersect_loop (other : ref) (items : list (string * Z))
    (out : dict) : M dict :=
  match items with
  | [] => mret out
  | (k, v) :: rest =>
      o ← get other k;
      intersect_loop other rest
        (if decide (o = Some v) then <[k := v]> out else out)
  end.

Definition intersect (self other : ref) : M ref :=
  values ← read self;
  out ← intersect_loop other (map_to_list values) ∅;
  init out.

Definition update_insn (self : ref) (insn : Insn) (op_vals : dict)
  : M unit :=
  values ← read self;
  new_values ← lift (new_facts insn op_vals values);
  let iflow := iflow_evaluate insn op_vals values in
  _ ← write self (pop_all (all_sinks iflow) values);
  values' ← read self;
  write self (dict_update values' new_values).

(** [empty] is a static method. *)
Definition empty : M ref := init (<["x0" := 0%Z]> ∅).

End ConstantContext.

(** ** Auxiliary definitions for the statements *)

(** The invariant of the class: [x0] is present and maps to [0]. *)
Definition x0_inv (values : dict) : Prop := values !! "x0" = Some 0%Z.

(** The effect of one iteration of the loop of [intersect] on [out], given
    the dictionary [ov] of [other]. *)
Definition keep_agreeing (ov : dict) (out : dict) (kv : string * Z) : dict :=
  if decide (ov !! kv.1 = Some kv.2) then <[kv.1 := kv.2]> out else out.

Definition intersect_values (sv ov : dict) : dict :=
  foldl (keep_agreeing ov) ∅ (map_to_list sv).

(** The condition under which an iteration of the increment loop writes a
    fact: the operand is named [<reg>_inc], its value is nonzero, and the
    register rendered for [<reg>] is [r], known with value [w] before the
    instruction. *)
Definition fires (insn : Insn) (op_vals values : dict) (op : Operand)
    (r : string) (w : Z) : Prop :=
  endswith (name op) "_inc" = true
  ∧ (∃ flag, op_vals !! name op = Some flag ∧ flag ≠ 0%Z)
  ∧ get_op_val_str insn op_vals
      (drop_last (String.length "_inc") (name op)) = Ok r
  ∧ values !! r = Some w.

(** Well-formedness of an instruction instance, as the surrounding tool
    guarantees it: the operands are indexed by their names, every operand
    has a value in [op_vals], [addi] and [lui] have the operands of the
    OTBN instruction set, and an operand [<reg>_inc] comes with a register
    operand [<reg>]. *)
Definition is_reg_operand (insn : Insn) (opname : string) : Prop :=
  match name_to_operand insn !! opname with
  | Some op =>
      match op_type op with
      | RegOperandType _ => True
      | OtherOperandType => False
      end
  | None => False
  end.

Definition is_operand (insn : Insn) (opname : string) : Prop :=
  is_Some (name_to_operand insn !! opname).

Definition well_formed (insn : Insn) (op_vals : dict) : Prop :=
  Forall (λ op, is_operand insn (name op)) (operands insn)
  ∧ map_Forall (λ opname _, is_Some (op_vals !! opname))
      (name_to_operand insn)
  ∧ (mnemonic insn = "addi" →
     is_reg_operand insn "grs1" ∧ is_reg_operand insn "grd"
     ∧ is_operand insn "imm")
  ∧ (mnemonic insn = "lui" →
     is_reg_operand insn "grd" ∧ is_operand insn "imm")
  ∧ Forall (λ op, endswith (name op) "_inc" →
                  is_reg_operand insn
                    (drop_last (String.length "_inc") (name op)))
      (operands insn).

#[global] Instance is_reg_operand_dec insn opname :
  Decision (is_reg_operand insn opname).
Proof.
  unfold is_reg_operand.
  destruct (name_to_operand insn !! opname) as [op|]; [|apply _].
  destruct (op_type op); apply _.
Defined.

#[global] Instance well_formed_dec insn op_vals :
  Decision (well_formed insn op_vals).
Proof. unfold well_formed, is_operand. apply _. Defined.

(** ** Sample instruction instances

    Three descriptors in the shape of the OTBN instruction set, used to run
    the embedding on concrete inputs. *)

(** GPR operands are rendered as [x<n>]. *)
Definition gpr : OperandType :=
  RegOperandType (λ op_val _, "x" +:+ pretty op_val).

Definition index_operands (ops : list Operand) : gmap string Operand :=
  list_to_map ((λ op, (name op, op)) <$> ops).

(** The sinks of the sample instructions: the GPR selected by a
    destination operand, and the GPR selected by an operand whose increment
    flag is set. *)
Definition reg_sink (op_vals : dict) (reg : string) : gset string :=
  match op_vals !! reg with
  | Some v => {[ "x" +:+ pretty v ]}
  | None => ∅
  end.

Definition inc_sink (op_vals : dict) (flag reg : string) : gset string :=
  match op_vals !! flag with
  | Some f => if decide (f = 0%Z) then ∅ else reg_sink op_vals reg
  | None => ∅
  end.

Definition addi : Insn :=
  let ops := [ {| name := "grd"; op_type := gpr |};
               {| name := "grs1"; op_type := gpr |};
               {| name := "imm"; op_type := OtherOperandType |} ] in
  {| mnemonic := "addi";
     operands := ops;
     name_to_operand := index_operands ops;
     iflow_evaluate := λ op_vals _,
       {| all_sinks := reg_sink op_vals "grd" |} |}.

Definition lui : Insn :=
  let ops := [ {| name := "grd"; op_type := gpr |};
               {| name := "imm"; op_type := OtherOperandType |} ] in
  {| mnemonic := "lui";
     operands := ops;
     name_to_operand := index_operands ops;
     iflow_evaluate := λ op_vals _,
       {| all_sinks := reg_sink op_vals "grd" |} |}.

Definition bn_lid : Insn :=
  let ops := [ {| name := "grd"; op_type := gpr |};
               {| name := "grs1"; op_type := gpr |};
               {| name := "offset"; op_type := OtherOperandType |};
               {| name := "grs1_inc"; op_type := OtherOperandType |};
               {| name := "grd_inc"; op_type := OtherOperandType |} ] in
  {| mnemonic := "bn.lid";
     operands := ops;
     name_to_operand := index_operands ops;
     iflow_evaluate := λ op_vals _,
       {| all_sinks := inc_sink op_vals "grs1_inc" "grs1"
                       ∪ inc_sink op_vals "grd_inc" "grd" |} |}.

(** [{name: value, ...}] *)
Definition mkdict (items : list (string * Z)) : dict := list_to_map items.

(** A store with one context, in which [x1 = 5] and [x2 = 10]. *)
Definition sample_values : dict :=
  mkdict [("x0", 0); ("x1", 5); ("x2", 10)]%Z.

Definition sample_heap : Heap := [sample_values].

(** WDR operands are rendered as [w<n>].  [bn.mov] has no increment
    operand; its sink is the destination WDR. *)
Definition wdr : OperandType :=
  RegOperandType (λ op_val _, "w" +:+ pretty op_val).

Definition bn_mov : Insn :=
  let ops := [ {| name := "wrd"; op_type := wdr |};
               {| name := "wrs"; op_type := wdr |} ] in
  {| mnemonic := "bn.mov";
     operands := ops;
     name_to_operand := index_operands ops;
     iflow_evaluate := λ op_vals _,
       {| all_sinks := match op_vals !! "wrd" with
                       | Some v => {[ "w" +:+ pretty v ]}
                       | None => ∅
                       end |} |}.

(** ** Lemmas on the Python primitives *)

Lemma lookup_pop_all (sinks : gset string) (d : dict) (r : string) :
  pop_all sinks d !! r = if decide (r ∈ sinks) then None else d !! r.
Proof.
  unfold pop_all.
  assert (Hl : ∀ l : list string,
             foldr delete d l !! r = if decide (r ∈ l) then None else d !! r).
  { induction l as [|k l IH]; cbn [foldr].
    - by rewrite decide_False by set_solver.
    - destruct (decide (k = r)) as [->|Hne].
      + rewrite lookup_delete_eq. by rewrite decide_True by set_solver.
      + rewrite lookup_delete_ne, IH by done.
        destruct (decide (r ∈ l)).
        * by rewrite decide_True by set_solver.
        * by rewrite decide_False by set_solver. }
  rewrite Hl. destruct (decide (r ∈ sinks)).
  - by rewrite decide_True by set_solver.
  - by rewrite decide_False by set_solver.
Qed.

Lemma lookup_dict_update (d new : dict) (r : string) :
  dict_update d new !! r =
    match new !! r with Some v => Some v | None => d !! r end.
Proof.
  unfold dict_update. rewrite lookup_union.
  destruct (new !! r), (d !! r); done.
Qed.

Lemma lookup_foldl_keep_agreeing (ov : dict) (items : list (string * Z)) :
  ∀ (out : dict) (r : string) (v : Z),
    NoDup items.*1 →
    (∀ k, k ∈ items.*1 → out !! k = None) →
    foldl (keep_agreeing ov) out items !! r = Some v ↔
      ((r, v) ∈ items ∧ ov !! r = Some v) ∨ out !! r = Some v.
Proof.
  induction items as [|[k w] rest IH]; intros out r v Hnd Hfresh.
  - cbn [foldl]. set_solver.
  - cbn [foldl]. apply NoDup_cons in Hnd as [Hk Hnd].
    assert (Hout : out !! k = None) by (apply Hfresh; set_solver).
    rewrite IH; [|done|].
    + assert (Hnot : ∀ v', (k, v') ∉ rest).
      { intros v' Hin. apply Hk, list_elem_of_fmap. by exists (k, v'). }
      unfold keep_agreeing; cbn [fst snd]. rewrite elem_of_cons.
      destruct (decide (ov !! k = Some w)) as [Hag|Hdis].
      * rewrite lookup_insert.
        destruct (decide (k = r)) as [->|Hne]; naive_solver.
      * naive_solver.
    + intros k' Hk'. unfold keep_agreeing; cbn [fst snd].
      assert (k ≠ k') by (intros ->; done).
      case_decide; [rewrite lookup_insert_ne by done|];
        apply Hfresh; set_solver.
Qed.

Lemma lookup_intersect_values (sv ov : dict) (r : string) (v : Z) :
  intersect_values sv ov !! r = Some v ↔ sv !! r = Some v ∧ ov !! r = Some v.
Proof.
  unfold intersect_values.
  rewrite lookup_foldl_keep_agreeing.
  - rewrite elem_of_map_to_list, lookup_empty. naive_solver.
  - apply NoDup_fst_map_to_list.
  - intros. apply lookup_empty.
Qed.

Lemma bind_Ok {A B : Type} (a : A) (k : A → result B) : Ok a ≫= k = k a.
Proof. reflexivity. Qed.

Lemma subscript_Some {V : Type} (d : gmap string V) (k : string) (v : V) :
  d !! k = Some v → subscript d k = Ok v.
Proof. intros H. unfold subscript. by rewrite H. Qed.

Lemma bind_Raise {A B : Type} (e : exn) (k : A → result B) :
  Raise e ≫= k = Raise e.
Proof. reflexivity. Qed.

(** ** Running the methods on an allocated object *)

Lemma read_run (h : Heap) (self : ref) (values : dict) :
  h !! self = Some values → read self h = (Ok values, h).
Proof. intros H. unfold read. by rewrite H. Qed.

Lemma write_run (h : Heap) (self : ref) (old values : dict) :
  h !! self = Some old → write self values h = (Ok tt, <[self := values]> h).
Proof. intros H. unfold write. by rewrite H. Qed.

Lemma lookup_written (h : Heap) (self : ref) (old values : dict) :
  h !! self = Some old → <[self := values]> h !! self = Some values.
Proof.
  intros H. apply list_lookup_insert_eq. by eapply lookup_lt_Some.
Qed.

Lemma get_run (h : Heap) (self : ref) (values : dict) (gpr : string) :
  h !! self = Some values →
  ConstantContext.get self gpr h = (Ok (values !! gpr), h).
Proof.
  intros H. unfold ConstantContext.get, mbind, M_bind.
  by rewrite (read_run _ _ _ H).
Qed.

Lemma contains_run (h : Heap) (self : ref) (values : dict) (gpr : string) :
  h !! self = Some values →
  ConstantContext.contains self gpr h =
    (Ok (bool_decide (is_Some (values !! gpr))), h).
Proof.
  intros H. unfold ConstantContext.contains, mbind, M_bind.
  by rewrite (read_run _ _ _ H).
Qed.

Lemma init_run (h : Heap) (values : dict) :
  x0_inv values →
  ConstantContext.init values h = (Ok (length h), h ++ [values]).
Proof. intros H. unfold ConstantContext.init. by rewrite decide_True. Qed.

Lemma init_raise (h : Heap) (values : dict) :
  ¬ x0_inv values →
  ConstantContext.init values h = (Raise AssertionError, h).
Proof. intros H. unfold ConstantContext.init. by rewrite decide_False. Qed.

Lemma intersect_loop_run (h : Heap) (other : ref) (ov : dict)
    (items : list (string * Z)) :
  h !! other = Some ov →
  ∀ out, ConstantContext.intersect_loop other items out h =
           (Ok (foldl (keep_agreeing ov) out items), h).
Proof.
  intros H. induction items as [|[k v] rest IH]; intros out; [done|].
  cbn [ConstantContext.intersect_loop foldl]. unfold mbind, M_bind.
  rewrite (get_run _ _ _ k H). apply IH.
Qed.

Lemma intersect_run (h : Heap) (self other : ref) (sv ov : dict) :
  h !! self = Some sv → h !! other = Some ov →
  ConstantContext.intersect self other h =
    ConstantContext.init (intersect_values sv ov) h.
Proof.
  intros Hs Ho. unfold ConstantContext.intersect, mbind, M_bind.
  rewrite (read_run _ _ _ Hs).
  by rewrite (intersect_loop_run _ _ _ _ Ho).
Qed.

Lemma update_insn_run (h : Heap) (self : ref) (values nv : dict)
    (insn : Insn) (op_vals : dict) :
  h !! self = Some values →
  new_facts insn op_vals values = Ok nv →
  ConstantContext.update_insn self insn op_vals h =
    (Ok tt,
     <[self := dict_update
                 (pop_all (all_sinks (iflow_evaluate insn op_vals values))
                          values) nv]> h).
Proof.
  intros Hs Hnv. unfold ConstantContext.update_insn, mbind, M_bind, lift.
  rewrite (read_run _ _ _ Hs), Hnv, (write_run _ _ _ _ Hs).
  rewrite (read_run _ _ _ (lookup_written _ _ _ _ Hs)).
  rewrite (write_run _ _ _ _ (lookup_written _ _ _ _ Hs)).
  by rewrite list_insert_insert_eq.
Qed.

Lemma update_insn_raise (h : Heap) (self : ref) (values : dict)
    (insn : Insn) (op_vals : dict) (e : exn) :
  h !! self = Some values →
  new_facts insn op_vals values = Raise e →
  ConstantContext.update_insn self insn op_vals h = (Raise e, h).
Proof.
  intros Hs Hnv. unfold ConstantContext.update_insn, mbind, M_bind, lift.
  by rewrite (read_run _ _ _ Hs), Hnv.
Qed.

(** ** The transfer function [update_insn] *)

(** C2: after [update_insn], a register of the instruction's sink set
    (evaluated from [op_vals] and the values before the update) that step 1
    did not compute is unknown, and one that step 1 did compute holds the
    computed value. *)
Theorem update_insn_sinks (h : Heap) (self : ref) (values nv : dict)
    (insn : Insn) (op_vals : dict) :
  h !! self = Some values →
  new_facts insn op_vals values = Ok nv →
  ∃ h', ConstantContext.update_insn self insn op_vals h = (Ok tt, h')
    ∧ ∀ r, r ∈ all_sinks (iflow_evaluate insn op_vals values) →
        match nv !! r with
        | None => ConstantContext.contains self r h' = (Ok false, h')
        | Some v => ConstantContext.get self r h' = (Ok (Some v), h')
        end.
Proof.
  intros Hs Hnv. eexists. split; [by apply update_insn_run|].
  intros r Hr.
  pose proof (lookup_written _ _ _
    (dict_update
       (pop_all (all_sinks (iflow_evaluate insn op_vals values)) values) nv)
    Hs) as Hw.
  destruct (nv !! r) as [v|] eqn:Hnvr.
  - rewrite (get_run _ _ _ r Hw), lookup_dict_update, Hnvr. done.
  - rewrite (contains_run _ _ _ r Hw), lookup_dict_update, Hnvr.
    rewrite lookup_pop_all, decide_True by done.
    rewrite bool_decide_eq_false_2; [done|]. by intros [? ?].
Qed.

Lemma update_insn_sinks_witness :
  let op_vals := mkdict [("grd", 2); ("grs1", 1); ("imm", 3)]%Z in
  sample_heap !! 0 = Some sample_values
  ∧ new_facts addi op_vals sample_values = Ok (mkdict [("x2", 8%Z)])
  ∧ ∃ h', ConstantContext.update_insn 0 addi op_vals sample_heap = (Ok tt, h')
      ∧ ∀ r, r ∈ all_sinks (iflow_evaluate addi op_vals sample_values) →
          match mkdict [("x2", 8%Z)] !! r with
          | None => ConstantContext.contains 0 r h' = (Ok false, h')
          | Some v => ConstantContext.get 0 r h' = (Ok (Some v), h')
          end.
Proof.
  intros op_vals.
  split; [reflexivity|]. split; [vm_compute; reflexivity|].
  apply (update_insn_sinks sample_heap 0 sample_values
           (mkdict [("x2", 8%Z)]) addi op_vals);
    [reflexivity | vm_compute; reflexivity].
Defined.

(** C10: frame property.  A register that is neither in the sink set nor
    computed by step 1 is known after [update_insn] exactly when it was
    known before, with the same value; no other object of the store is
    touched. *)
Theorem update_insn_frame (h : Heap) (self : ref) (values nv : dict)
    (insn : Insn) (op_vals : dict) :
  h !! self = Some values →
  new_facts insn op_vals values = Ok nv →
  ∃ h', ConstantContext.update_insn self insn op_vals h = (Ok tt, h')
    ∧ (∀ r, r ∉ all_sinks (iflow_evaluate insn op_vals values) →
            nv !! r = None →
            ConstantContext.get self r h' = (Ok (values !! r), h')
            ∧ ConstantContext.contains self r h'
              = (Ok (bool_decide (is_Some (values !! r))), h'))
    ∧ (∀ other, other ≠ self → h' !! other = h !! other).
Proof.
  intros Hs Hnv. eexists. split; [by apply update_insn_run|].
  pose proof (lookup_written _ _ _
    (dict_update
       (pop_all (all_sinks (iflow_evaluate insn op_vals values)) values) nv)
    Hs) as Hw.
  split.
  - intros r Hr Hnvr.
    rewrite (get_run _ _ _ r Hw), (contains_run _ _ _ r Hw).
    rewrite lookup_dict_update, Hnvr, lookup_pop_all.
    by rewrite decide_False by done.
  - intros other Hne. by rewrite list_lookup_insert_ne.
Qed.

Lemma update_insn_frame_witness :
  let op_vals := mkdict [("grd", 2); ("grs1", 1); ("imm", 3)]%Z in
  sample_heap !! 0 = Some sample_values
  ∧ new_facts addi op_vals sample_values = Ok (mkdict [("x2", 8%Z)])
  ∧ ∃ h', ConstantContext.update_insn 0 addi op_vals sample_heap = (Ok tt, h')
      ∧ (∀ r, r ∉ all_sinks (iflow_evaluate addi op_vals sample_values) →
              mkdict [("x2", 8%Z)] !! r = None →
              ConstantContext.get 0 r h' = (Ok (sample_values !! r), h')
              ∧ ConstantContext.contains 0 r h'
                = (Ok (bool_decide (is_Some (sample_values !! r))), h'))
      ∧ (∀ other, other ≠ 0 → h' !! other = sample_heap !! other).
Proof.
  intros op_vals.
  split; [reflexivity|]. split; [vm_compute; reflexivity|].
  apply (update_insn_frame sample_heap 0 sample_values
           (mkdict [("x2", 8%Z)]) addi op_vals);
    [reflexivity | vm_compute; reflexivity].
Defined.

(** The facts established by the [addi] and [lui] branches. *)
Lemma new_facts_addi_known (insn : Insn) (op_vals values : dict)
    (src dst : string) (s imm : Z) :
  mnemonic insn = "addi" →
  get_op_val_str insn op_vals "grs1" = Ok src →
  values !! src = Some s →
  get_op_val_str insn op_vals "grd" = Ok dst →
  op_vals !! "imm" = Some imm →
  new_facts insn op_vals values = Ok (<[dst := (s + imm)%Z]> ∅).
Proof.
  intros Hm Hsrc Hs Hdst Himm. unfold new_facts.
  rewrite decide_True by done. rewrite Hsrc. cbn. rewrite Hs, Hdst. cbn.
  unfold subscript. by rewrite Himm.
Qed.

Lemma new_facts_addi_unknown (insn : Insn) (op_vals values : dict)
    (src : string) :
  mnemonic insn = "addi" →
  get_op_val_str insn op_vals "grs1" = Ok src →
  values !! src = None →
  new_facts insn op_vals values = Ok ∅.
Proof.
  intros Hm Hsrc Hs. unfold new_facts.
  rewrite decide_True by done. rewrite Hsrc. cbn. by rewrite Hs.
Qed.

Lemma new_facts_lui (insn : Insn) (op_vals values : dict)
    (dst : string) (imm : Z) :
  mnemonic insn = "lui" →
  get_op_val_str insn op_vals "grd" = Ok dst →
  op_vals !! "imm" = Some imm →
  new_facts insn op_vals values = Ok (<[dst := Z.shiftl imm 12]> ∅).
Proof.
  intros Hm Hdst Himm. unfold new_facts.
  rewrite decide_False by (rewrite Hm; done).
  rewrite decide_True by done. rewrite Hdst. cbn.
  unfold subscript. by rewrite Himm.
Qed.

(** C3: on [addi], when the register rendered for [grs1] is known with
    value [s], the register rendered for [grd] is known with value
    [s + op_vals["imm"]] afterwards.  When the source is not known the rule
    yields no fact: the context only loses the registers of the sink set. *)
Theorem update_insn_addi (h : Heap) (self : ref) (values : dict)
    (insn : Insn) (op_vals : dict) (src : string) :
  mnemonic insn = "addi" →
  h !! self = Some values →
  get_op_val_str insn op_vals "grs1" = Ok src →
  (∀ (s imm : Z) (dst : string),
     values !! src = Some s →
     get_op_val_str insn op_vals "grd" = Ok dst →
     op_vals !! "imm" = Some imm →
     ∃ h', ConstantContext.update_insn self insn op_vals h = (Ok tt, h')
       ∧ ConstantContext.get self dst h' = (Ok (Some (s + imm)%Z), h'))
  ∧ (values !! src = None →
     new_facts insn op_vals values = Ok ∅
     ∧ ∃ h', ConstantContext.update_insn self insn op_vals h = (Ok tt, h')
         ∧ ∀ r, ConstantContext.get self r h' =
                  (Ok (if decide
                            (r ∈ all_sinks (iflow_evaluate insn op_vals values))
                       then None else values !! r), h')).
Proof.
  intros Hm Hs Hsrc. split.
  - intros s imm dst Hv Hdst Himm.
    pose proof (new_facts_addi_known _ _ _ _ _ _ _ Hm Hsrc Hv Hdst Himm)
      as Hnv.
    eexists. split; [by apply update_insn_run|].
    rewrite (get_run _ _ _ dst (lookup_written _ _ _ _ Hs)).
    by rewrite lookup_dict_update, lookup_insert_eq.
  - intros Hv.
    pose proof (new_facts_addi_unknown _ _ _ _ Hm Hsrc Hv) as Hnv.
    split; [done|].
    eexists. split; [by apply update_insn_run|].
    intros r. rewrite (get_run _ _ _ r (lookup_written _ _ _ _ Hs)).
    by rewrite lookup_dict_update, lookup_empty, lookup_pop_all.
Qed.

Lemma update_insn_addi_witness :
  (∃ h', ConstantContext.update_insn 0 addi
           (mkdict [("grd", 2); ("grs1", 1); ("imm", 3)]%Z) sample_heap
         = (Ok tt, h')
     ∧ ConstantContext.get 0 "x2" h' = (Ok (Some (5 + 3)%Z), h'))
  ∧ new_facts addi (mkdict [("grd", 2); ("grs1", 7); ("imm", 3)]%Z)
      sample_values = Ok ∅.
Proof.
  split.
  - apply (proj1 (update_insn_addi sample_heap 0 sample_values addi
                    (mkdict [("grd", 2); ("grs1", 1); ("imm", 3)]%Z) "x1"
                    eq_refl eq_refl eq_refl) 5%Z 3%Z "x2");
      vm_compute; reflexivity.
  - apply (proj2 (update_insn_addi sample_heap 0 sample_values addi
                    (mkdict [("grd", 2); ("grs1", 7); ("imm", 3)]%Z) "x7"
                    eq_refl eq_refl eq_refl)).
    vm_compute; reflexivity.
Defined.

(** C4: on [lui], the register rendered for [grd] is known with value
    [op_vals["imm"] << 12] afterwards, whatever was known about it. *)
Theorem update_insn_lui (h : Heap) (self : ref) (values : dict)
    (insn : Insn) (op_vals : dict) (dst : string) (imm : Z) :
  mnemonic insn = "lui" →
  h !! self = Some values →
  get_op_val_str insn op_vals "grd" = Ok dst →
  op_vals !! "imm" = Some imm →
  ∃ h', ConstantContext.update_insn self insn op_vals h = (Ok tt, h')
    ∧ ConstantContext.get self dst h' = (Ok (Some (Z.shiftl imm 12)), h')
    ∧ Z.shiftl imm 12 = (imm * 4096)%Z.
Proof.
  intros Hm Hs Hdst Himm.
  pose proof (new_facts_lui _ _ values _ _ Hm Hdst Himm) as Hnv.
  eexists. split; [by apply update_insn_run|]. split.
  - rewrite (get_run _ _ _ dst (lookup_written _ _ _ _ Hs)).
    by rewrite lookup_dict_update, lookup_insert_eq.
  - by rewrite Z.shiftl_mul_pow2.
Qed.

Lemma update_insn_lui_witness :
  ∃ h', ConstantContext.update_insn 0 lui
          (mkdict [("grd", 2); ("imm", 2)]%Z) sample_heap = (Ok tt, h')
    ∧ ConstantContext.get 0 "x2" h' = (Ok (Some (Z.shiftl 2 12)), h')
    ∧ Z.shiftl 2 12 = (2 * 4096)%Z.
Proof.
  apply (update_insn_lui sample_heap 0 sample_values lui
           (mkdict [("grd", 2); ("imm", 2)]%Z) "x2" 2%Z);
    vm_compute; reflexivity.
Defined.

(** ** The increment rule *)

Section inc_rule.
Variables (insn : Insn) (op_vals values : dict).

Lemma inc_loop_app (ops1 ops2 : list Operand) (nv0 : dict) :
  inc_loop insn op_vals values (ops1 ++ ops2) nv0 =
    inc_loop insn op_vals values ops1 nv0
      ≫= inc_loop insn op_vals values ops2.
Proof.
  revert nv0. induction ops1 as [|op ops1 IH]; intros nv0; [done|].
  cbn [app inc_loop].
  destruct (inc_step insn op_vals values nv0 op) as [nv1|e]; [|done].
  apply IH.
Qed.

Lemma inc_step_fires (op : Operand) (r : string) (w : Z) (nv0 : dict) :
  fires insn op_vals values op r w →
  inc_step insn op_vals values nv0 op = Ok (<[r := (w + 1)%Z]> nv0).
Proof.
  intros (Hend & (flag & Hflag & Hnz) & Hr & Hw). unfold inc_step.
  rewrite Hend. unfold subscript at 1. rewrite Hflag, bind_Ok.
  rewrite decide_True by done. cbv zeta. by rewrite Hr, bind_Ok, Hw.
Qed.

(** Once [r] has been given its incremented value, no later iteration
    changes it: an iteration writes [values[k] + 1] at some [k]. *)
Lemma inc_step_keeps (op : Operand) (r : string) (w : Z) (nv0 nv1 : dict) :
  values !! r = Some w →
  nv0 !! r = Some (w + 1)%Z →
  inc_step insn op_vals values nv0 op = Ok nv1 →
  nv1 !! r = Some (w + 1)%Z.
Proof.
  intros Hw H0. unfold inc_step.
  destruct (endswith (name op) "_inc"); [|congruence].
  destruct (subscript op_vals (name op)) as [flag|]; cbn; [|done].
  destruct (decide (flag ≠ 0%Z)); [|congruence].
  destruct (get_op_val_str insn op_vals _) as [k|]; cbn; [|done].
  destruct (values !! k) as [w'|] eqn:Hk; [|congruence].
  intros [= <-]. destruct (decide (k = r)) as [->|Hne].
  - rewrite lookup_insert_eq. congruence.
  - by rewrite lookup_insert_ne.
Qed.

Lemma inc_loop_keeps (ops : list Operand) (r : string) (w : Z) :
  values !! r = Some w →
  ∀ nv0 nv, nv0 !! r = Some (w + 1)%Z →
    inc_loop insn op_vals values ops nv0 = Ok nv →
    nv !! r = Some (w + 1)%Z.
Proof.
  intros Hw. induction ops as [|op ops IH]; intros nv0 nv H0; cbn.
  - congruence.
  - destruct (inc_step insn op_vals values nv0 op) as [nv1|] eqn:Hstep;
      cbn; [|done].
    apply IH. by eapply inc_step_keeps.
Qed.

Lemma inc_loop_fires (ops : list Operand) (op : Operand) (r : string)
    (w : Z) :
  op ∈ ops → fires insn op_vals values op r w →
  ∀ nv0 nv, inc_loop insn op_vals values ops nv0 = Ok nv →
    nv !! r = Some (w + 1)%Z.
Proof.
  intros Hin Hf. induction Hin as [op ops|op op' ops Hin IH];
    intros nv0 nv; cbn.
  - rewrite (inc_step_fires _ _ _ _ Hf), bind_Ok. intros Hloop.
    eapply (inc_loop_keeps ops r w); [by destruct Hf as (_&_&_&?)| |done].
    apply lookup_insert_eq.
  - destruct (inc_step insn op_vals values nv0 op') as [nv1|]; cbn; [|done].
    by apply IH.
Qed.
End inc_rule.

(** C5: for a mnemonic other than [addi] and [lui], an operand [<reg>_inc]
    with a nonzero value whose register [<reg>] is rendered as [r], known
    with value [w], leaves [r] known with value [w + 1].  The loop visits
    the operands in order and each such operand overwrites what the
    operands before it computed for [r], with [w + 1] computed from the
    value before the instruction. *)
Theorem update_insn_inc (h : Heap) (self : ref) (values nv : dict)
    (insn : Insn) (op_vals : dict) (op : Operand) (r : string) (w : Z) :
  mnemonic insn ≠ "addi" → mnemonic insn ≠ "lui" →
  h !! self = Some values →
  new_facts insn op_vals values = Ok nv →
  op ∈ operands insn →
  fires insn op_vals values op r w →
  (∃ h', ConstantContext.update_insn self insn op_vals h = (Ok tt, h')
     ∧ ConstantContext.get self r h' = (Ok (Some (w + 1)%Z), h'))
  ∧ (∀ before after, operands insn = before ++ op :: after →
       ∃ nv0, inc_loop insn op_vals values before ∅ = Ok nv0
         ∧ inc_loop insn op_vals values (before ++ [op]) ∅
           = Ok (<[r := (w + 1)%Z]> nv0)).
Proof.
  intros Ha Hl Hs Hnv Hin Hf.
  assert (Hloop : inc_loop insn op_vals values (operands insn) ∅ = Ok nv).
  { revert Hnv. unfold new_facts. by rewrite !decide_False by done. }
  split.
  - eexists. split; [by apply update_insn_run|].
    rewrite (get_run _ _ _ r (lookup_written _ _ _ _ Hs)).
    rewrite lookup_dict_update.
    by rewrite (inc_loop_fires _ _ _ _ _ _ _ Hin Hf _ _ Hloop).
  - intros before after Hops. rewrite Hops, inc_loop_app in Hloop.
    destruct (inc_loop insn op_vals values before ∅) as [nv0|] eqn:Hb;
      [|done].
    exists nv0. split; [done|].
    rewrite inc_loop_app, Hb. cbn. by rewrite (inc_step_fires _ _ _ _ _ _ _ Hf).
Qed.

Lemma update_insn_inc_witness :
  let op_vals := mkdict [("grd", 3); ("grs1", 2); ("offset", 0);
                         ("grs1_inc", 1); ("grd_inc", 0)]%Z in
  ∃ h', ConstantContext.update_insn 0 bn_lid op_vals sample_heap = (Ok tt, h')
    ∧ ConstantContext.get 0 "x2" h' = (Ok (Some (10 + 1)%Z), h').
Proof.
  intros op_vals.
  refine (proj1 (update_insn_inc sample_heap 0 sample_values
                   (mkdict [("x2", 11%Z)]) bn_lid op_vals
                   {| name := "grs1_inc"; op_type := OtherOperandType |}
                   "x2" 10%Z _ _ _ _ _ _)).
  - discriminate.
  - discriminate.
  - reflexivity.
  - vm_compute; reflexivity.
  - vm_compute. set_solver.
  - repeat split; try (vm_compute; reflexivity).
    exists 1%Z. split; [vm_compute; reflexivity | discriminate].
Defined.

(** Both flags set on the same register: one increment, not two. *)
Example update_insn_inc_same_register :
  let op_vals := mkdict [("grd", 1); ("grs1", 1); ("offset", 0);
                         ("grs1_inc", 1); ("grd_inc", 1)]%Z in
  new_facts bn_lid op_vals sample_values = Ok (mkdict [("x1", 6%Z)]).
Proof. vm_compute. reflexivity. Qed.

(** ** Intersection *)

Lemma intersect_values_x0 (sv ov : dict) :
  x0_inv sv → x0_inv ov → x0_inv (intersect_values sv ov).
Proof. intros Hs Ho. by apply lookup_intersect_values. Qed.

Lemma intersect_values_comm (sv ov : dict) :
  intersect_values sv ov = intersect_values ov sv.
Proof.
  apply map_eq. intros r. apply option_eq. intros v.
  rewrite !lookup_intersect_values. naive_solver.
Qed.

Lemma intersect_values_idemp (sv : dict) : intersect_values sv sv = sv.
Proof.
  apply map_eq. intros r. apply option_eq. intros v.
  rewrite lookup_intersect_values. naive_solver.
Qed.

(** C6: [a.intersect(b)] returns a new object whose dictionary holds
    exactly the pairs that [a] and [b] both hold; a register on which the
    two differ (known to one only, or known with two values) is absent; and
    [a] and [b], like every object of the store, are left as they were. *)
Theorem intersect_spec (h : Heap) (a b : ref) (va vb : dict) :
  h !! a = Some va → h !! b = Some vb →
  x0_inv va → x0_inv vb →
  ∃ out,
    ConstantContext.intersect a b h = (Ok (length h), h ++ [out])
    ∧ h !! length h = None
    ∧ (h ++ [out]) !! length h = Some out
    ∧ (∀ r v, out !! r = Some v ↔ va !! r = Some v ∧ vb !! r = Some v)
    ∧ (∀ r, va !! r ≠ vb !! r → out !! r = None)
    ∧ (h ++ [out]) !! a = Some va
    ∧ (h ++ [out]) !! b = Some vb
    ∧ (∀ c, c < length h → (h ++ [out]) !! c = h !! c).
Proof.
  intros Ha Hb Hia Hib. exists (intersect_values va vb).
  split; [|split; [|split; [|split; [|split; [|split; [|split]]]]]].
  - rewrite (intersect_run _ _ _ _ _ Ha Hb).
    by apply init_run, intersect_values_x0.
  - by apply lookup_ge_None_2.
  - by apply list_lookup_middle.
  - apply lookup_intersect_values.
  - intros r Hne. apply eq_None_not_Some. intros [v Hv].
    apply lookup_intersect_values in Hv as [? ?]. congruence.
  - by apply lookup_app_l_Some.
  - by apply lookup_app_l_Some.
  - intros c Hc. by apply lookup_app_l.
Qed.

Lemma intersect_spec_witness :
  let va := mkdict [("x0", 0); ("x1", 5); ("x2", 10)]%Z in
  let vb := mkdict [("x0", 0); ("x1", 5); ("x2", 11); ("x3", 1)]%Z in
  let h := [va; vb] in
  x0_inv va ∧ x0_inv vb
  ∧ ∃ out,
      ConstantContext.intersect 0 1 h = (Ok (length h), h ++ [out])
      ∧ h !! length h = None
      ∧ (h ++ [out]) !! length h = Some out
      ∧ (∀ r v, out !! r = Some v ↔ va !! r = Some v ∧ vb !! r = Some v)
      ∧ (∀ r, va !! r ≠ vb !! r → out !! r = None)
      ∧ (h ++ [out]) !! 0 = Some va
      ∧ (h ++ [out]) !! 1 = Some vb
      ∧ (∀ c, c < length h → (h ++ [out]) !! c = h !! c).
Proof.
  intros va vb h. split; [reflexivity|]. split; [reflexivity|].
  apply (intersect_spec h 0 1 va vb); reflexivity.
Defined.

Example intersect_sample :
  let va := mkdict [("x0", 0); ("x1", 5); ("x2", 10)]%Z in
  let vb := mkdict [("x0", 0); ("x1", 5); ("x2", 11); ("x3", 1)]%Z in
  ConstantContext.intersect 0 1 [va; vb]
    = (Ok 2, [va; vb; mkdict [("x0", 0); ("x1", 5)]%Z]).
Proof. vm_compute. reflexivity. Qed.

(** The assertion of [__init__] is what makes [intersect] depend on the
    invariant of its two arguments. *)
Lemma intersect_raises (h : Heap) (a b : ref) (va vb : dict) :
  h !! a = Some va → h !! b = Some vb →
  ¬ (x0_inv va ∧ x0_inv vb) →
  ConstantContext.intersect a b h = (Raise AssertionError, h).
Proof.
  intros Ha Hb Hn. rewrite (intersect_run _ _ _ _ _ Ha Hb).
  apply init_raise. unfold x0_inv. by rewrite lookup_intersect_values.
Qed.

(** C7: intersection is commutative on content and idempotent. *)
Theorem intersect_comm_idemp (h : Heap) (a b : ref) (va vb : dict) :
  h !! a = Some va → h !! b = Some vb →
  x0_inv va → x0_inv vb →
  (∃ out,
     ConstantContext.intersect a b h = (Ok (length h), h ++ [out])
     ∧ ConstantContext.intersect b a h = (Ok (length h), h ++ [out]))
  ∧ ConstantContext.intersect a a h = (Ok (length h), h ++ [va]).
Proof.
  intros Ha Hb Hia Hib. split.
  - exists (intersect_values va vb). split.
    + rewrite (intersect_run _ _ _ _ _ Ha Hb).
      by apply init_run, intersect_values_x0.
    + rewrite (intersect_run _ _ _ _ _ Hb Ha), intersect_values_comm.
      by apply init_run, intersect_values_x0.
  - rewrite (intersect_run _ _ _ _ _ Ha Ha), intersect_values_idemp.
    by apply init_run.
Qed.

Lemma intersect_comm_idemp_witness :
  let va := mkdict [("x0", 0); ("x1", 5); ("x2", 10)]%Z in
  let vb := mkdict [("x0", 0); ("x1", 5); ("x2", 11); ("x3", 1)]%Z in
  let h := [va; vb] in
  x0_inv va ∧ x0_inv vb
  ∧ (∃ out,
       ConstantContext.intersect 0 1 h = (Ok (length h), h ++ [out])
       ∧ ConstantContext.intersect 1 0 h = (Ok (length h), h ++ [out]))
  ∧ ConstantContext.intersect 0 0 h = (Ok (length h), h ++ [va]).
Proof.
  intros va vb h. split; [reflexivity|]. split; [reflexivity|].
  apply (intersect_comm_idemp h 0 1 va vb); reflexivity.
Defined.

(** ** [set] and [get] *)

Lemma set_run (h : Heap) (self : ref) (values : dict) (gpr : string)
    (value : Z) :
  h !! self = Some values →
  ConstantContext.set self gpr value h =
    (Ok tt, if decide (gpr = "x0") then h
            else <[self := <[gpr := value]> values]> h).
Proof.
  intros Hs. unfold ConstantContext.set.
  destruct (decide (gpr = "x0")); [done|].
  unfold mbind, M_bind.
  by rewrite (read_run _ _ _ Hs), (write_run _ _ _ _ Hs).
Qed.

(** C8: [c.set("x0", v)] changes nothing, so that [c.get("x0")] is still
    [0]; for a register [r] other than [x0], [c.get(r)] is [v] after
    [c.set(r, v)]. *)
Theorem set_spec (h : Heap) (c : ref) (values : dict) (v : Z) :
  h !! c = Some values →
  x0_inv values →
  ConstantContext.set c "x0" v h = (Ok tt, h)
  ∧ ConstantContext.get c "x0" h = (Ok (Some 0%Z), h)
  ∧ ∀ r, r ≠ "x0" →
      ∃ h', ConstantContext.set c r v h = (Ok tt, h')
        ∧ ConstantContext.get c r h' = (Ok (Some v), h').
Proof.
  intros Hc Hinv. split; [done|]. split.
  - by rewrite (get_run _ _ _ _ Hc), Hinv.
  - intros r Hr. eexists. split.
    + rewrite (set_run _ _ _ _ _ Hc). by rewrite decide_False by done.
    + rewrite (get_run _ _ _ r (lookup_written _ _ _ _ Hc)).
      by rewrite lookup_insert_eq.
Qed.

Lemma set_spec_witness :
  x0_inv sample_values
  ∧ ConstantContext.set 0 "x0" 7%Z sample_heap = (Ok tt, sample_heap)
  ∧ ConstantContext.get 0 "x0" sample_heap = (Ok (Some 0%Z), sample_heap)
  ∧ ∀ r, r ≠ "x0" →
      ∃ h', ConstantContext.set 0 r 7%Z sample_heap = (Ok tt, h')
        ∧ ConstantContext.get 0 r h' = (Ok (Some 7%Z), h').
Proof.
  split; [reflexivity|].
  apply (set_spec sample_heap 0 sample_values 7%Z); reflexivity.
Defined.

(** [set] on [x0] does not even need the object to satisfy the invariant
    to leave the store as it is. *)
Lemma set_x0_noop (h : Heap) (c : ref) (v : Z) :
  ConstantContext.set c "x0" v h = (Ok tt, h).
Proof. reflexivity. Qed.

(** ** Failures *)

Section totality.
Variables (insn : Insn) (op_vals values : dict).
Hypothesis Hvals :
  map_Forall (λ opname _, is_Some (op_vals !! opname))
    (name_to_operand insn).

Lemma subscript_operand (opname : string) :
  is_operand insn opname → ∃ v, subscript op_vals opname = Ok v.
Proof.
  intros [op Hop]. destruct (Hvals _ _ Hop) as [v Hv].
  exists v. unfold subscript. by rewrite Hv.
Qed.

Lemma get_op_val_str_total (opname : string) :
  is_reg_operand insn opname →
  ∃ s, get_op_val_str insn op_vals opname = Ok s.
Proof.
  unfold is_reg_operand, get_op_val_str.
  destruct (name_to_operand insn !! opname) as [op|] eqn:Hop; [|done].
  rewrite (subscript_Some _ _ _ Hop), bind_Ok.
  destruct (op_type op) as [f|]; [|done]. intros _.
  destruct (subscript_operand opname) as [v Hv]; [by exists op|].
  rewrite Hv, bind_Ok. by eexists.
Qed.

Lemma inc_step_total (op : Operand) (nv0 : dict) :
  is_operand insn (name op) →
  (endswith (name op) "_inc" →
   is_reg_operand insn (drop_last (String.length "_inc") (name op))) →
  ∃ nv, inc_step insn op_vals values nv0 op = Ok nv.
Proof.
  intros Hop Hreg. unfold inc_step.
  destruct (endswith (name op) "_inc"); [|by eexists].
  destruct (subscript_operand _ Hop) as [flag Hflag].
  rewrite Hflag, bind_Ok. destruct (decide (flag ≠ 0%Z)); [|by eexists].
  cbv zeta. destruct (get_op_val_str_total _ (Hreg I)) as [r Hr].
  rewrite Hr, bind_Ok. destruct (values !! r); by eexists.
Qed.

Lemma inc_loop_total (ops : list Operand) :
  Forall (λ op, is_operand insn (name op)) ops →
  Forall (λ op, endswith (name op) "_inc" →
                is_reg_operand insn
                  (drop_last (String.length "_inc") (name op))) ops →
  ∀ nv0, ∃ nv, inc_loop insn op_vals values ops nv0 = Ok nv.
Proof.
  induction ops as [|op ops IH]; intros Hops Hinc nv0; [by eexists|].
  apply Forall_cons in Hops as [Hop Hops].
  apply Forall_cons in Hinc as [Hreg Hinc].
  cbn [inc_loop].
  destruct (inc_step_total op nv0 Hop Hreg) as [nv1 Hstep].
  rewrite Hstep, bind_Ok. by apply IH.
Qed.
End totality.

(** Step 1 never raises on a well-formed instruction instance. *)
Lemma new_facts_total (insn : Insn) (op_vals values : dict) :
  well_formed insn op_vals → ∃ nv, new_facts insn op_vals values = Ok nv.
Proof.
  intros (Hops & Hvals & Haddi & Hlui & Hinc). unfold new_facts.
  destruct (decide (mnemonic insn = "addi")) as [Ha|Ha].
  - destruct (Haddi Ha) as (Hgrs1 & Hgrd & Himm).
    destruct (get_op_val_str_total _ _ Hvals _ Hgrs1) as [src Hsrc].
    rewrite Hsrc, bind_Ok. destruct (values !! src); [|by eexists].
    destruct (get_op_val_str_total _ _ Hvals _ Hgrd) as [dst Hdst].
    destruct (subscript_operand _ _ Hvals _ Himm) as [imm Hi].
    rewrite Hdst, bind_Ok, Hi, bind_Ok. by eexists.
  - destruct (decide (mnemonic insn = "lui")) as [Hl|Hl].
    + destruct (Hlui Hl) as (Hgrd & Himm).
      destruct (get_op_val_str_total _ _ Hvals _ Hgrd) as [dst Hdst].
      destruct (subscript_operand _ _ Hvals _ Himm) as [imm Hi].
      rewrite Hdst, bind_Ok, Hi, bind_Ok. by eexists.
    + by apply inc_loop_total.
Qed.

(** C9: [AssertionError] comes from the constructor, exactly when the
    mapping has no [x0] or binds it to a non-zero value.  On objects that
    satisfy the invariant and on a well-formed instruction instance, no
    operation raises. *)
Theorem failure_modes (h : Heap) (self other : ref) (values ov : dict)
    (insn : Insn) (op_vals : dict) :
  h !! self = Some values → h !! other = Some ov →
  x0_inv values → x0_inv ov →
  well_formed insn op_vals →
  (∀ m h0,
     (m !! "x0" = Some 0%Z →
      ConstantContext.init m h0 = (Ok (length h0), h0 ++ [m]))
     ∧ (m !! "x0" = None ∨ (∃ v, m !! "x0" = Some v ∧ v ≠ 0%Z) →
        ConstantContext.init m h0 = (Raise AssertionError, h0)))
  ∧ (∃ r h', ConstantContext.empty h = (Ok r, h'))
  ∧ (∀ gpr, ∃ o, ConstantContext.get self gpr h = (Ok o, h))
  ∧ (∀ gpr, ∃ b, ConstantContext.contains self gpr h = (Ok b, h))
  ∧ (∀ gpr v, ∃ h', ConstantContext.set self gpr v h = (Ok tt, h'))
  ∧ (∃ r h', ConstantContext.copy self h = (Ok r, h'))
  ∧ (∃ r h', ConstantContext.intersect self other h = (Ok r, h'))
  ∧ (∃ h', ConstantContext.update_insn self insn op_vals h = (Ok tt, h')).
Proof.
  intros Hs Ho His Hio Hwf.
  split; [|split; [|split; [|split; [|split; [|split; [|split]]]]]].
  - intros m h0. split.
    + apply init_run.
    + intros Hbad. apply init_raise. unfold x0_inv.
      destruct Hbad as [Hn|(v & Hv & Hnz)]; congruence.
  - by do 2 eexists.
  - intros gpr. eexists. by apply get_run.
  - intros gpr. eexists. by apply contains_run.
  - intros gpr v. eexists. by apply set_run.
  - do 2 eexists. unfold ConstantContext.copy, mbind, M_bind.
    rewrite (read_run _ _ _ Hs). by apply init_run.
  - do 2 eexists. rewrite (intersect_run _ _ _ _ _ Hs Ho).
    by apply init_run, intersect_values_x0.
  - destruct (new_facts_total insn op_vals values Hwf) as [nv Hnv].
    eexists. by apply update_insn_run.
Qed.

Lemma failure_modes_witness :
  let va := mkdict [("x0", 0); ("x1", 5); ("x2", 10)]%Z in
  let vb := mkdict [("x0", 0); ("x1", 5); ("x2", 11); ("x3", 1)]%Z in
  let h := [va; vb] in
  let op_vals := mkdict [("grd", 3); ("grs1", 2); ("offset", 0);
                         ("grs1_inc", 1); ("grd_inc", 0)]%Z in
  well_formed bn_lid op_vals
  ∧ (∃ r h', ConstantContext.copy 0 h = (Ok r, h'))
  ∧ (∃ r h', ConstantContext.intersect 0 1 h = (Ok r, h'))
  ∧ (∃ h', ConstantContext.update_insn 0 bn_lid op_vals h = (Ok tt, h')).
Proof.
  intros va vb h op_vals.
  assert (Hwf : well_formed bn_lid op_vals).
  { apply (bool_decide_unpack _). vm_compute. exact I. }
  split; [exact Hwf|].
  destruct (failure_modes h 0 1 va vb bn_lid op_vals
              eq_refl eq_refl eq_refl eq_refl Hwf)
    as (_ & _ & _ & _ & _ & Hcopy & Hint & Hupd).
  exact (conj Hcopy (conj Hint Hupd)).
Defined.

(** Without well-formedness step 1 can raise: here [op_vals] has no value
    for [imm].  The exception leaves the store as it was. *)
Example update_insn_missing_imm :
  ConstantContext.update_insn 0 addi (mkdict [("grd", 2); ("grs1", 1)]%Z)
    sample_heap = (Raise (KeyError "imm"), sample_heap).
Proof. by apply (update_insn_raise _ _ sample_values). Qed.

(** ** The invariant on [x0] *)

Lemma init_inv (m : dict) (h h' : Heap) (r : ref) :
  ConstantContext.init m h = (Ok r, h') → h' = h ++ [m] ∧ x0_inv m.
Proof.
  unfold ConstantContext.init. case_decide; [|done]. by intros [= <- <-].
Qed.

Lemma intersect_loop_heap (other : ref) (items : list (string * Z)) :
  ∀ out h res h',
    ConstantContext.intersect_loop other items out h = (res, h') → h' = h.
Proof.
  induction items as [|[k v] rest IH]; intros out h res h'.
  - by intros [= _ <-].
  - cbn [ConstantContext.intersect_loop].
    unfold mbind, M_bind, ConstantContext.get, mbind, M_bind, read, mret,
      M_ret.
    destruct (h !! other); [apply IH | by intros [= _ <-]].
Qed.

(** X7: the constructors and [set], [copy], [intersect] keep every object of
    the store with [x0] bound to [0]. *)
Lemma x0_inv_basic_operations (h : Heap) :
  Forall x0_inv h →
  (∀ r h', ConstantContext.empty h = (Ok r, h') → Forall x0_inv h')
  ∧ (∀ m r h', ConstantContext.init m h = (Ok r, h') → Forall x0_inv h')
  ∧ (∀ self gpr v h',
       ConstantContext.set self gpr v h = (Ok tt, h') → Forall x0_inv h')
  ∧ (∀ self r h',
       ConstantContext.copy self h = (Ok r, h') → Forall x0_inv h')
  ∧ (∀ self other r h',
       ConstantContext.intersect self other h = (Ok r, h') →
       Forall x0_inv h').
Proof.
  intros Hh.
  assert (Hinit : ∀ m r h',
             ConstantContext.init m h = (Ok r, h') → Forall x0_inv h').
  { intros m r h' [-> Hm]%init_inv. apply Forall_app. by repeat constructor. }
  split; [intros r h'; apply Hinit|]. split; [done|].
  split; [|split].
  - intros self gpr v h'.
    destruct (h !! self) as [values|] eqn:Hs.
    + rewrite (set_run _ _ _ _ _ Hs).
      destruct (decide (gpr = "x0")) as [->|Hne]; intros [= <-]; [done|].
      apply Forall_insert; [done|]. unfold x0_inv.
      rewrite lookup_insert_ne by done.
      by apply (Forall_lookup_1 _ _ _ _ Hh Hs).
    + unfold ConstantContext.set.
      destruct (decide (gpr = "x0")); [by intros [= <-]|].
      unfold mbind, M_bind, read. by rewrite Hs.
  - intros self r h'. unfold ConstantContext.copy, mbind, M_bind, read.
    destruct (h !! self); [apply Hinit | done].
  - intros self other r h'.
    unfold ConstantContext.intersect, mbind, M_bind, read.
    destruct (h !! self) as [sv|]; [|done].
    destruct (ConstantContext.intersect_loop other (map_to_list sv) ∅ h)
      as [[out|e] h1] eqn:Hloop; [|done].
    apply intersect_loop_heap in Hloop as ->. apply Hinit.
Qed.

(** Whatever the information-flow evaluator answers, an [addi] whose
    destination is rendered as [x0] and whose source is known binds [x0] to
    the sum: the facts of step 1 are written without the guard of [set]. *)
Lemma update_insn_addi_rebinds_x0 (h : Heap) (self : ref) (values : dict)
    (insn : Insn) (op_vals : dict) (src : string) (s imm : Z) :
  mnemonic insn = "addi" →
  h !! self = Some values →
  get_op_val_str insn op_vals "grs1" = Ok src →
  values !! src = Some s →
  get_op_val_str insn op_vals "grd" = Ok "x0" →
  op_vals !! "imm" = Some imm →
  ∃ h', ConstantContext.update_insn self insn op_vals h = (Ok tt, h')
    ∧ ConstantContext.get self "x0" h' = (Ok (Some (s + imm)%Z), h').
Proof.
  intros Hm Hs Hsrc Hv Hdst Himm.
  pose proof (new_facts_addi_known _ _ _ _ _ _ _ Hm Hsrc Hv Hdst Himm) as Hnv.
  eexists. split; [by apply update_insn_run|].
  rewrite (get_run _ _ _ "x0" (lookup_written _ _ _ _ Hs)).
  by rewrite lookup_dict_update, lookup_insert_eq.
Qed.

(** C1: [update_insn] does not keep the invariant.  On [addi x0, x1, 3]
    with [x1 = 5] it binds [x0] to [8]; on an instruction whose sink set
    holds [x0] and for which step 1 computes nothing, it removes [x0].  In
    both stores [copy], whose constructor asserts the invariant, raises. *)
Theorem update_insn_breaks_x0 :
  let rebind := mkdict [("grd", 0); ("grs1", 1); ("imm", 3)]%Z in
  let remove := mkdict [("grd", 0); ("grs1", 7); ("imm", 3)]%Z in
  let h1 := [mkdict [("x0", 8); ("x1", 5); ("x2", 10)]%Z] in
  let h2 := [mkdict [("x1", 5); ("x2", 10)]%Z] in
  Forall x0_inv sample_heap
  ∧ well_formed addi rebind ∧ well_formed addi remove
  ∧ ConstantContext.update_insn 0 addi rebind sample_heap = (Ok tt, h1)
  ∧ ConstantContext.get 0 "x0" h1 = (Ok (Some 8%Z), h1)
  ∧ ConstantContext.copy 0 h1 = (Raise AssertionError, h1)
  ∧ "x0" ∈ all_sinks (iflow_evaluate addi remove sample_values)
  ∧ ConstantContext.update_insn 0 addi remove sample_heap = (Ok tt, h2)
  ∧ ConstantContext.contains 0 "x0" h2 = (Ok false, h2)
  ∧ ConstantContext.copy 0 h2 = (Raise AssertionError, h2).
Proof.
  intros rebind remove h1 h2.
  split; [by repeat constructor|].
  split; [apply (bool_decide_unpack _); vm_compute; exact I|].
  split; [apply (bool_decide_unpack _); vm_compute; exact I|].
  split; [vm_compute; reflexivity|].
  split; [vm_compute; reflexivity|].
  split; [vm_compute; reflexivity|].
  split; [vm_compute; set_solver|].
  split; [vm_compute; reflexivity|].
  split; vm_compute; reflexivity.
Qed.


(** * Further properties of the class *)

(** ** Objects are independent *)

Lemma copy_run (h : Heap) (self : ref) (values : dict) :
  h !! self = Some values →
  ConstantContext.copy self h = ConstantContext.init values h.
Proof.
  intros Hs. unfold ConstantContext.copy, mbind, M_bind.
  by rewrite (read_run _ _ _ Hs).
Qed.




(** ** When [copy] and [intersect] raise *)

(** X2: both go through the constructor: they return exactly when the
    dictionaries they read bind [x0] to [0], and raise [AssertionError]
    otherwise, leaving the store as it was. *)
Theorem copy_intersect_assert (h : Heap) (a b : ref) (va vb : dict) :
  h !! a = Some va → h !! b = Some vb →
  (x0_inv va →
   ConstantContext.copy a h = (Ok (length h), h ++ [va]))
  ∧ (¬ x0_inv va →
     ConstantContext.copy a h = (Raise AssertionError, h))
  ∧ (x0_inv va ∧ x0_inv vb →
     ∃ out, ConstantContext.intersect a b h = (Ok (length h), h ++ [out]))
  ∧ (¬ (x0_inv va ∧ x0_inv vb) →
     ConstantContext.intersect a b h = (Raise AssertionError, h)).
Proof.
  intros Ha Hb. rewrite (copy_run _ _ _ Ha), (intersect_run _ _ _ _ _ Ha Hb).
  split; [apply init_run|]. split; [apply init_raise|]. split.
  - intros [? ?]. eexists. by apply init_run, intersect_values_x0.
  - intros Hn. apply init_raise. unfold x0_inv.
    by rewrite lookup_intersect_values.
Qed.

Lemma copy_intersect_assert_witness :
  let broken := mkdict [("x1", 5%Z)] in
  let h := [sample_values; broken] in
  ConstantContext.copy 0 h = (Ok 2, h ++ [sample_values])
  ∧ ConstantContext.copy 1 h = (Raise AssertionError, h)
  ∧ ConstantContext.intersect 0 1 h = (Raise AssertionError, h).
Proof.
  intros broken h.
  destruct (copy_intersect_assert h 0 1 sample_values broken
              eq_refl eq_refl) as (Hc & _ & _ & Hi).
  destruct (copy_intersect_assert h 1 0 broken sample_values
              eq_refl eq_refl) as (_ & Hc' & _ & _).
  split; [apply Hc; reflexivity|].
  split; [apply Hc'; vm_compute; discriminate|].
  apply Hi. vm_compute. intros [_ ?]. discriminate.
Defined.

(** ** [update_insn] and exceptions *)

(** X3: an exception of [update_insn] is an exception of step 1, raised before
    the context is written: the store is the one before the call. *)
Theorem update_insn_exception_safe (h h' : Heap) (self : ref) (values : dict)
    (insn : Insn) (op_vals : dict) (e : exn) :
  h !! self = Some values →
  ConstantContext.update_insn self insn op_vals h = (Raise e, h') →
  h' = h ∧ new_facts insn op_vals values = Raise e.
Proof.
  intros Hs. destruct (new_facts insn op_vals values) as [nv|e'] eqn:Hnv.
  - by rewrite (update_insn_run _ _ _ _ _ _ Hs Hnv).
  - rewrite (update_insn_raise _ _ _ _ _ _ Hs Hnv). by intros [= <- <-].
Qed.

Lemma update_insn_exception_safe_witness :
  let op_vals := mkdict [("grd", 2); ("grs1", 1)]%Z in
  ConstantContext.update_insn 0 addi op_vals sample_heap
    = (Raise (KeyError "imm"), sample_heap)
  ∧ sample_heap = sample_heap
  ∧ new_facts addi op_vals sample_values = Raise (KeyError "imm").
Proof.
  intros op_vals.
  assert (Hrun : ConstantContext.update_insn 0 addi op_vals sample_heap
                 = (Raise (KeyError "imm"), sample_heap))
    by (vm_compute; reflexivity).
  split; [exact Hrun|].
  exact (update_insn_exception_safe sample_heap sample_heap 0 sample_values
           addi op_vals (KeyError "imm") eq_refl Hrun).
Defined.

(** ** Instructions that establish no fact *)

Lemma inc_loop_no_flag (insn : Insn) (op_vals values : dict)
    (ops : list Operand) :
  Forall (λ op, endswith (name op) "_inc" = true →
                op_vals !! name op = Some 0%Z) ops →
  ∀ nv0, inc_loop insn op_vals values ops nv0 = Ok nv0.
Proof.
  induction 1 as [|op ops Hop _ IH]; intros nv0; [done|].
  cbn [inc_loop]. unfold inc_step.
  destruct (endswith (name op) "_inc"); [|by rewrite bind_Ok].
  rewrite (subscript_Some _ _ _ (Hop eq_refl)), bind_Ok.
  rewrite decide_False by (intros Hnz; by apply Hnz).
  by rewrite bind_Ok.
Qed.

(** X4: for a mnemonic other than [addi] and [lui], when every operand named
    [<reg>_inc] has value zero (in particular when there is none), the call
    returns whatever else [op_vals] holds or lacks, and its whole effect is
    to forget the registers of the sink set. *)
Theorem update_insn_only_invalidates (h : Heap) (self : ref) (values : dict)
    (insn : Insn) (op_vals : dict) :
  mnemonic insn ≠ "addi" → mnemonic insn ≠ "lui" →
  h !! self = Some values →
  Forall (λ op, endswith (name op) "_inc" = true →
                op_vals !! name op = Some 0%Z) (operands insn) →
  ∃ h', ConstantContext.update_insn self insn op_vals h = (Ok tt, h')
    ∧ ∀ r, ConstantContext.get self r h' =
             (Ok (if decide
                       (r ∈ all_sinks (iflow_evaluate insn op_vals values))
                  then None else values !! r), h').
Proof.
  intros Ha Hl Hs Hflags.
  assert (Hnv : new_facts insn op_vals values = Ok ∅).
  { unfold new_facts. rewrite !decide_False by done.
    by apply inc_loop_no_flag. }
  eexists. split; [by apply update_insn_run|].
  intros r. rewrite (get_run _ _ _ r (lookup_written _ _ _ _ Hs)).
  by rewrite lookup_dict_update, lookup_empty, lookup_pop_all.
Qed.

Lemma update_insn_only_invalidates_witness :
  let values := mkdict [("x0", 0); ("w1", 7); ("w2", 9)]%Z in
  let op_vals := mkdict [("wrd", 1); ("wrs", 2)]%Z in
  ∃ h', ConstantContext.update_insn 0 bn_mov op_vals [values] = (Ok tt, h')
    ∧ ∀ r, ConstantContext.get 0 r h' =
             (Ok (if decide
                       (r ∈ all_sinks (iflow_evaluate bn_mov op_vals values))
                  then None else values !! r), h').
Proof.
  intros values op_vals.
  apply (update_insn_only_invalidates [values] 0 values bn_mov op_vals).
  - discriminate.
  - discriminate.
  - reflexivity.
  - repeat constructor; vm_compute; discriminate.
Defined.

(** ** The increment rule only updates known registers *)

Lemma inc_loop_sound (insn : Insn) (op_vals values : dict)
    (ops : list Operand) :
  ∀ nv0 nv, inc_loop insn op_vals values ops nv0 = Ok nv →
    ∀ r v, nv !! r = Some v →
      nv0 !! r = Some v ∨ ∃ w, values !! r = Some w ∧ v = (w + 1)%Z.
Proof.
  induction ops as [|op ops IH]; intros nv0 nv; cbn [inc_loop].
  - intros [= <-] r v Hr. by left.
  - destruct (inc_step insn op_vals values nv0 op) as [nv1|] eqn:Hstep;
      [rewrite bind_Ok | done].
    intros Hloop r v Hr.
    destruct (IH _ _ Hloop r v Hr) as [H1|?]; [|by right].
    revert Hstep. unfold inc_step.
    destruct (endswith (name op) "_inc"); [|intros [= ->]; by left].
    destruct (subscript op_vals (name op)) as [flag|]; [|done].
    rewrite bind_Ok.
    destruct (decide (flag ≠ 0%Z)); [|intros [= ->]; by left].
    cbv zeta. destruct (get_op_val_str insn op_vals _) as [k|]; [|done].
    rewrite bind_Ok.
    destruct (values !! k) as [w|] eqn:Hk; [|intros [= ->]; by left].
    intros [= <-]. destruct (decide (k = r)) as [->|Hne].
    + rewrite lookup_insert_eq in H1. right. exists w. split; congruence.
    + rewrite lookup_insert_ne in H1 by done. by left.
Qed.

(** X5: for a mnemonic other than [addi] and [lui], [update_insn] never makes
    an unknown register known: a register known afterwards was known
    before, with the same value or with that value plus one. *)
Theorem update_insn_inc_no_new_register (h h' : Heap) (self : ref)
    (values : dict) (insn : Insn) (op_vals : dict) :
  mnemonic insn ≠ "addi" → mnemonic insn ≠ "lui" →
  h !! self = Some values →
  ConstantContext.update_insn self insn op_vals h = (Ok tt, h') →
  ∃ values', h' !! self = Some values'
    ∧ ∀ r v, values' !! r = Some v →
        ∃ w, values !! r = Some w ∧ (v = w ∨ v = (w + 1)%Z).
Proof.
  intros Ha Hl Hs Hrun.
  destruct (new_facts insn op_vals values) as [nv|e] eqn:Hnv;
    [|by rewrite (update_insn_raise _ _ _ _ _ _ Hs Hnv) in Hrun].
  rewrite (update_insn_run _ _ _ _ _ _ Hs Hnv) in Hrun.
  injection Hrun as <-.
  eexists. split; [by eapply lookup_written|].
  intros r v. rewrite lookup_dict_update.
  destruct (nv !! r) as [v'|] eqn:Hr.
  - intros [= <-]. revert Hnv. unfold new_facts.
    rewrite !decide_False by done. intros Hloop.
    destruct (inc_loop_sound _ _ _ _ _ _ Hloop r v' Hr) as [He|(w & ? & ?)].
    + by rewrite lookup_empty in He.
    + exists w. by split; [|right].
  - rewrite lookup_pop_all. case_decide; [done|].
    intros Hv. exists v. by split; [|left].
Qed.

Lemma update_insn_inc_no_new_register_witness :
  let op_vals := mkdict [("grd", 3); ("grs1", 2); ("offset", 0);
                         ("grs1_inc", 1); ("grd_inc", 1)]%Z in
  let h' := [mkdict [("x0", 0); ("x1", 5); ("x2", 11)]%Z] in
  ConstantContext.update_insn 0 bn_lid op_vals sample_heap = (Ok tt, h')
  ∧ ∃ values', h' !! 0 = Some values'
      ∧ ∀ r v, values' !! r = Some v →
          ∃ w, sample_values !! r = Some w ∧ (v = w ∨ v = (w + 1)%Z).
Proof.
  intros op_vals h'.
  assert (Hrun : ConstantContext.update_insn 0 bn_lid op_vals sample_heap
                 = (Ok tt, h')) by (vm_compute; reflexivity).
  split; [exact Hrun|].
  apply (update_insn_inc_no_new_register sample_heap h' 0 sample_values
           bn_lid op_vals); [discriminate | discriminate | reflexivity |].
  exact Hrun.
Defined.

(** ** When [update_insn] keeps the invariant *)

(** X6: starting from a context with [x0 = 0], the context after [update_insn]
    still has [x0 = 0] exactly when step 1 computed [0] for [x0], or
    computed nothing for it and [x0] is not in the sink set. *)
Theorem update_insn_x0_iff (h : Heap) (self : ref) (values nv : dict)
    (insn : Insn) (op_vals : dict) :
  h !! self = Some values →
  x0_inv values →
  new_facts insn op_vals values = Ok nv →
  ∃ values',
    ConstantContext.update_insn self insn op_vals h
      = (Ok tt, <[self := values']> h)
    ∧ (x0_inv values' ↔
       nv !! "x0" = Some 0%Z
       ∨ (nv !! "x0" = None
          ∧ "x0" ∉ all_sinks (iflow_evaluate insn op_vals values))).
Proof.
  intros Hs Hinv Hnv. eexists. split; [by apply update_insn_run|].
  unfold x0_inv. rewrite lookup_dict_update, lookup_pop_all.
  destruct (nv !! "x0") as [v|].
  - split; [by left | by intros [?|[? _]]].
  - case_decide.
    + split; [done | by intros [?|[_ ?]]].
    + split; [by right | done].
Qed.

Lemma update_insn_x0_iff_witness :
  let op_vals := mkdict [("grd", 2); ("grs1", 1); ("imm", 3)]%Z in
  let nv := mkdict [("x2", 8%Z)] in
  x0_inv sample_values
  ∧ new_facts addi op_vals sample_values = Ok nv
  ∧ ∃ values',
      ConstantContext.update_insn 0 addi op_vals sample_heap
        = (Ok tt, <[0 := values']> sample_heap)
      ∧ (x0_inv values' ↔
         nv !! "x0" = Some 0%Z
         ∨ (nv !! "x0" = None
            ∧ "x0" ∉ all_sinks (iflow_evaluate addi op_vals sample_values))).
Proof.
  intros op_vals nv. split; [reflexivity|].
  split; [vm_compute; reflexivity|].
  apply (update_insn_x0_iff sample_heap 0 sample_values nv addi op_vals);
    [reflexivity | reflexivity | vm_compute; reflexivity].
Defined.

Lemma x0_inv_basic_operations_witness :
  Forall x0_inv sample_heap
  ∧ ∀ self gpr v h',
      ConstantContext.set self gpr v sample_heap = (Ok tt, h') →
      Forall x0_inv h'.
Proof.
  assert (Hh : Forall x0_inv sample_heap) by by repeat constructor.
  split; [exact Hh|].
  exact (proj1 (proj2 (proj2 (x0_inv_basic_operations sample_heap Hh)))).
Defined.

(** ** The names of increment operands *)










(** ** [set], [get], [contains] and [empty] *)

(** X9: [set] changes at most the binding of its register in its receiver, and
    a second [set] of the same register replaces the first. *)
Theorem set_frame (h : Heap) (c : ref) (values : dict) (r : string) (v : Z) :
  h !! c = Some values →
  ∃ h', ConstantContext.set c r v h = (Ok tt, h')
    ∧ length h' = length h
    ∧ (∀ r', r' ≠ r →
         ConstantContext.get c r' h' = (Ok (values !! r'), h'))
    ∧ (∀ c', c' ≠ c → h' !! c' = h !! c')
    ∧ (∀ v2, ∃ h'', ConstantContext.set c r v2 h' = (Ok tt, h'')
                    ∧ ConstantContext.set c r v2 h = (Ok tt, h'')).
Proof.
  intros Hc. eexists. split; [by apply set_run|].
  destruct (decide (r = "x0")) as [->|Hr].
  - split; [done|]. split; [intros r' _; by apply get_run|].
    split; [done|]. intros v2. by eexists.
  - pose proof (lookup_written _ _ _ (<[r := v]> values) Hc) as Hw.
    split; [apply length_insert|]. split; [|split].
    + intros r' Hr'. rewrite (get_run _ _ _ r' Hw).
      by rewrite lookup_insert_ne.
    + intros c' Hc'. by rewrite list_lookup_insert_ne.
    + intros v2. eexists. split; [by apply set_run|].
      rewrite (set_run _ _ _ _ _ Hc), !decide_False by done.
      by rewrite list_insert_insert_eq, insert_insert_eq.
Qed.

Lemma set_frame_witness :
  ∃ h', ConstantContext.set 0 "x1" 9%Z sample_heap = (Ok tt, h')
    ∧ length h' = length sample_heap
    ∧ (∀ r', r' ≠ "x1" →
         ConstantContext.get 0 r' h' = (Ok (sample_values !! r'), h'))
    ∧ (∀ c', c' ≠ 0 → h' !! c' = sample_heap !! c')
    ∧ (∀ v2, ∃ h'', ConstantContext.set 0 "x1" v2 h' = (Ok tt, h'')
                    ∧ ConstantContext.set 0 "x1" v2 sample_heap
                      = (Ok tt, h'')).
Proof.
  apply (set_frame sample_heap 0 sample_values "x1" 9%Z). reflexivity.
Defined.

(** X10: [contains] answers [True] exactly when [get] does not answer [None],
    and neither of them changes the store. *)
Theorem contains_iff_get (h : Heap) (self : ref) (values : dict)
    (gpr : string) :
  h !! self = Some values →
  ∃ b o, ConstantContext.contains self gpr h = (Ok b, h)
    ∧ ConstantContext.get self gpr h = (Ok o, h)
    ∧ (b = true ↔ ∃ v, o = Some v).
Proof.
  intros Hs. do 2 eexists.
  split; [by apply contains_run|]. split; [by apply get_run|].
  rewrite bool_decide_eq_true. done.
Qed.

Lemma contains_iff_get_witness :
  ∃ b o, ConstantContext.contains 0 "x1" sample_heap = (Ok b, sample_heap)
    ∧ ConstantContext.get 0 "x1" sample_heap = (Ok o, sample_heap)
    ∧ (b = true ↔ ∃ v, o = Some v).
Proof.
  apply (contains_iff_get sample_heap 0 sample_values "x1"). reflexivity.
Defined.

(** X11: [empty] never raises: it allocates a context in which [x0] is [0] and
    no other register is known, and leaves the other objects alone. *)
Theorem empty_spec (h : Heap) :
  ∃ h', ConstantContext.empty h = (Ok (length h), h')
    ∧ ConstantContext.get (length h) "x0" h' = (Ok (Some 0%Z), h')
    ∧ (∀ r, r ≠ "x0" →
         ConstantContext.contains (length h) r h' = (Ok false, h'))
    ∧ (∀ c, c < length h → h' !! c = h !! c).
Proof.
  eexists. split; [by apply init_run|].
  assert (Hnew : (h ++ [<["x0" := 0%Z]> (∅ : dict)]) !! length h
                 = Some (<["x0" := 0%Z]> ∅)) by by apply list_lookup_middle.
  split; [|split].
  - by rewrite (get_run _ _ _ _ Hnew).
  - intros r Hr. rewrite (contains_run _ _ _ _ Hnew).
    by rewrite lookup_insert_ne, lookup_empty by done.
  - intros c Hc. by apply lookup_app_l.
Qed.


(** ** Intersection as a meet *)

Lemma intersect_values_assoc (va vb vc : dict) :
  intersect_values (intersect_values va vb) vc
  = intersect_values va (intersect_values vb vc).
Proof.
  apply map_eq. intros r. apply option_eq. intros v.
  rewrite !lookup_intersect_values. naive_solver.
Qed.

(** X12: the dictionary built by [a.intersect(b)] is included in those of [a]
    and of [b], and includes every dictionary included in both. *)
Theorem intersect_meet (h : Heap) (a b : ref) (va vb : dict) :
  h !! a = Some va → h !! b = Some vb →
  x0_inv va → x0_inv vb →
  ∃ out,
    ConstantContext.intersect a b h = (Ok (length h), h ++ [out])
    ∧ out ⊆ va ∧ out ⊆ vb
    ∧ ∀ d : dict, d ⊆ va → d ⊆ vb → d ⊆ out.
Proof.
  intros Ha Hb Hia Hib. exists (intersect_values va vb). split.
  - rewrite (intersect_run _ _ _ _ _ Ha Hb).
    by apply init_run, intersect_values_x0.
  - split; [|split].
    + apply map_subseteq_spec. intros r v.
      rewrite lookup_intersect_values. naive_solver.
    + apply map_subseteq_spec. intros r v.
      rewrite lookup_intersect_values. naive_solver.
    + intros d Hda Hdb. apply map_subseteq_spec. intros r v Hd.
      apply lookup_intersect_values.
      split; by eapply lookup_weaken.
Qed.

Lemma intersect_meet_witness :
  let va := mkdict [("x0", 0); ("x1", 5); ("x2", 10)]%Z in
  let vb := mkdict [("x0", 0); ("x1", 5); ("x2", 11); ("x3", 1)]%Z in
  let h := [va; vb] in
  x0_inv va ∧ x0_inv vb
  ∧ ∃ out,
      ConstantContext.intersect 0 1 h = (Ok (length h), h ++ [out])
      ∧ out ⊆ va ∧ out ⊆ vb
      ∧ ∀ d : dict, d ⊆ va → d ⊆ vb → d ⊆ out.
Proof.
  intros va vb h. split; [reflexivity|]. split; [reflexivity|].
  apply (intersect_meet h 0 1 va vb); reflexivity.
Defined.

(** X13: merging three contexts gives the same dictionary whichever two are
    merged first. *)
Theorem intersect_assoc (h : Heap) (a b c : ref) (va vb vc : dict) :
  h !! a = Some va → h !! b = Some vb → h !! c = Some vc →
  x0_inv va → x0_inv vb → x0_inv vc →
  ∃ ab bc out,
    ConstantContext.intersect a b h = (Ok (length h), h ++ [ab])
    ∧ ConstantContext.intersect (length h) c (h ++ [ab])
      = (Ok (S (length h)), (h ++ [ab]) ++ [out])
    ∧ ConstantContext.intersect b c h = (Ok (length h), h ++ [bc])
    ∧ ConstantContext.intersect a (length h) (h ++ [bc])
      = (Ok (S (length h)), (h ++ [bc]) ++ [out]).
Proof.
  intros Ha Hb Hc Hia Hib Hic.
  exists (intersect_values va vb), (intersect_values vb vc),
         (intersect_values (intersect_values va vb) vc).
  assert (Hlen : ∀ d : dict, length (h ++ [d]) = S (length h)).
  { intros d. rewrite length_app. cbn. lia. }
  split; [|split; [|split]].
  - rewrite (intersect_run _ _ _ _ _ Ha Hb).
    by apply init_run, intersect_values_x0.
  - rewrite (intersect_run _ _ _ (intersect_values va vb) vc).
    + rewrite init_run, Hlen; [done|].
      by apply intersect_values_x0; [apply intersect_values_x0|].
    + by apply list_lookup_middle.
    + by apply lookup_app_l_Some.
  - rewrite (intersect_run _ _ _ _ _ Hb Hc).
    by apply init_run, intersect_values_x0.
  - rewrite (intersect_run _ _ _ va (intersect_values vb vc)).
    + rewrite intersect_values_assoc, init_run, Hlen; [done|].
      by apply intersect_values_x0; [|apply intersect_values_x0].
    + by apply lookup_app_l_Some.
    + by apply list_lookup_middle.
Qed.

Lemma intersect_assoc_witness :
  let va := mkdict [("x0", 0); ("x1", 5); ("x2", 10)]%Z in
  let vb := mkdict [("x0", 0); ("x1", 5); ("x2", 11); ("x3", 1)]%Z in
  let vc := mkdict [("x0", 0); ("x1", 5); ("x3", 1)]%Z in
  let h := [va; vb; vc] in
  ∃ ab bc out,
    ConstantContext.intersect 0 1 h = (Ok (length h), h ++ [ab])
    ∧ ConstantContext.intersect (length h) 2 (h ++ [ab])
      = (Ok (S (length h)), (h ++ [ab]) ++ [out])
    ∧ ConstantContext.intersect 1 2 h = (Ok (length h), h ++ [bc])
    ∧ ConstantContext.intersect 0 (length h) (h ++ [bc])
      = (Ok (S (length h)), (h ++ [bc]) ++ [out]).
Proof.
  intros va vb vc h.
  apply (intersect_assoc h 0 1 2 va vb vc); reflexivity.
Defined.

(** X14: merging with a context fresh from [empty] leaves [x0] only. *)
Theorem intersect_empty (h : Heap) (a : ref) (va : dict) :
  h !! a = Some va →
  x0_inv va →
  ∃ h1,
    ConstantContext.empty h = (Ok (length h), h1)
    ∧ ConstantContext.intersect a (length h) h1
      = (Ok (S (length h)), h1 ++ [<["x0" := 0%Z]> ∅])
    ∧ ConstantContext.intersect (length h) a h1
      = (Ok (S (length h)), h1 ++ [<["x0" := 0%Z]> ∅]).
Proof.
  intros Ha Hia. eexists. split; [by apply init_run|].
  set (e := <["x0" := 0%Z]> (∅ : dict)).
  assert (He : (h ++ [e]) !! length h = Some e) by by apply list_lookup_middle.
  assert (Ha1 : (h ++ [e]) !! a = Some va) by by apply lookup_app_l_Some.
  assert (Hlen : length (h ++ [e]) = S (length h)).
  { rewrite length_app. cbn. lia. }
  assert (Hv : intersect_values va e = e).
  { apply map_eq. intros r. apply option_eq. intros v.
    rewrite lookup_intersect_values. unfold e.
    rewrite lookup_insert_Some, lookup_empty. unfold x0_inv in Hia.
    naive_solver. }
  split.
  - rewrite (intersect_run _ _ _ _ _ Ha1 He), Hv, init_run, Hlen; done.
  - rewrite (intersect_run _ _ _ _ _ He Ha1), intersect_values_comm, Hv.
    rewrite init_run, Hlen; done.
Qed.

Lemma intersect_empty_witness :
  x0_inv sample_values
  ∧ ∃ h1,
      ConstantContext.empty sample_heap = (Ok (length sample_heap), h1)
      ∧ ConstantContext.intersect 0 (length sample_heap) h1
        = (Ok (S (length sample_heap)), h1 ++ [<["x0" := 0%Z]> ∅])
      ∧ ConstantContext.intersect (length sample_heap) 0 h1
        = (Ok (S (length sample_heap)), h1 ++ [<["x0" := 0%Z]> ∅]).
Proof.
  split; [reflexivity|].
  apply (intersect_empty sample_heap 0 sample_values); reflexivity.
Defined.

(** ** Loading a constant with [lui] then [addi] *)

(** X15: after a [lui] into a register and an [addi] reading that register, the
    destination of the [addi] is known to hold [(hi << 12) + lo], whatever
    the context knew before and whatever the sink sets are. *)
Theorem update_insn_lui_addi (h : Heap) (self : ref) (values : dict)
    (i1 i2 : Insn) (ops1 ops2 : dict) (mid dst : string) (hi lo : Z) :
  mnemonic i1 = "lui" → mnemonic i2 = "addi" →
  h !! self = Some values →
  get_op_val_str i1 ops1 "grd" = Ok mid →
  ops1 !! "imm" = Some hi →
  get_op_val_str i2 ops2 "grs1" = Ok mid →
  get_op_val_str i2 ops2 "grd" = Ok dst →
  ops2 !! "imm" = Some lo →
  ∃ h1 h2,
    ConstantContext.update_insn self i1 ops1 h = (Ok tt, h1)
    ∧ ConstantContext.update_insn self i2 ops2 h1 = (Ok tt, h2)
    ∧ ConstantContext.get self dst h2
      = (Ok (Some (Z.shiftl hi 12 + lo)%Z), h2).
Proof.
  intros Hm1 Hm2 Hs Hmid Hhi Hsrc Hdst Hlo.
  pose proof (new_facts_lui _ _ values _ _ Hm1 Hmid Hhi) as Hnv1.
  do 2 eexists. split; [by apply update_insn_run|].
  set (values1 := dict_update _ _).
  pose proof (lookup_written _ _ _ values1 Hs) as Hs1.
  assert (Hv1 : values1 !! mid = Some (Z.shiftl hi 12)).
  { unfold values1. by rewrite lookup_dict_update, lookup_insert_eq. }
  pose proof (new_facts_addi_known _ _ _ _ _ _ _ Hm2 Hsrc Hv1 Hdst Hlo)
    as Hnv2.
  split; [by apply update_insn_run|].
  rewrite (get_run _ _ _ dst
             (lookup_written _ _ _ _ Hs1)).
  by rewrite lookup_dict_update, lookup_insert_eq.
Qed.

Lemma update_insn_lui_addi_witness :
  ∃ h1 h2,
    ConstantContext.update_insn 0 lui
      (mkdict [("grd", 3); ("imm", 2)]%Z) sample_heap = (Ok tt, h1)
    ∧ ConstantContext.update_insn 0 addi
        (mkdict [("grd", 3); ("grs1", 3); ("imm", 7)]%Z) h1 = (Ok tt, h2)
    ∧ ConstantContext.get 0 "x3" h2
      = (Ok (Some (Z.shiftl 2 12 + 7)%Z), h2).
Proof.
  apply (update_insn_lui_addi sample_heap 0 sample_values lui addi
           (mkdict [("grd", 3); ("imm", 2)]%Z)
           (mkdict [("grd", 3); ("grs1", 3); ("imm", 7)]%Z)
           "x3" "x3" 2%Z 7%Z);
    vm_compute; reflexivity.
Defined.
